(** * Finance_Tracker: the transactions service and the App shell

    A shallow embedding of

      - [src/services/transactions.js]: [getTransactions], [createTransaction];
      - [src/components/Navbar.jsx]: [Navbar];
      - [src/App.jsx]: [App].

    The service functions are [async] arrow functions that call an HTTP
    client ([api], imported from [./api], which is not part of the sources
    at hand) and return one property of what the client resolves with.
    They are embedded as terms of a small program monad whose only
    operations are the ones the two bodies use: building an object literal,
    reading a property, and awaiting a call of the client.  The client is a
    parameter of the interpreter, so every statement below holds for every
    client. *)

From stdpp Require Import base gmap strings list fin_maps.

Set Default Proof Using "Type".
Set Warnings "-register-all".
Open Scope string_scope.

(** ** JavaScript values and the object store *)

Module Js.

Definition loc := positive.

(** Primitive values are immediate; objects live in the store and are
    handled through their reference, as in the language.  The service
    never computes with a number, so its payload is kept abstract as an
    integer. *)
Inductive value : Type :=
| VUndefined
| VNull
| VBool (b : bool)
| VNum (n : Z)
| VStr (s : string)
| VRef (l : loc).

#[global] Instance value_eq_dec : EqDecision value.
Proof. solve_decision. Defined.

(** A plain object: its own properties.  Accessors and the prototype
    chain are not modelled; the objects that flow through the service
    (query filters, request payloads, HTTP responses) are plain data. *)
Abbreviation object := (gmap string value).
Abbreviation heap := (gmap loc object).

(** What a [throw] carries: any value, or the [TypeError] the runtime
    raises itself on a property read of [undefined] or [null]. *)
Inductive exn : Type :=
| Thrown (v : value)
| TypeError (msg : string).

#[global] Instance exn_eq_dec : EqDecision exn.
Proof. solve_decision. Defined.

(** [v.p].  A reference that is not in the store reads as an object
    without properties; references handed out by [alloc] and by the
    source never dangle. *)
Definition get_prop (h : heap) (v : value) (p : string) : value + exn :=
  match v with
  | VUndefined =>
      inr (TypeError ("Cannot read properties of undefined (reading '" ++ p ++ "')"))
  | VNull =>
      inr (TypeError ("Cannot read properties of null (reading '" ++ p ++ "')"))
  | VBool _ | VNum _ | VStr _ => inl VUndefined
  | VRef l =>
      match h !! l with
      | Some o => inl (default VUndefined (o !! p))
      | None => inl VUndefined
      end
  end.

(** An object literal: a fresh reference, the store extended with it. *)
Definition alloc (h : heap) (o : object) : loc * heap :=
  let l := fresh (dom h) in (l, <[l := o]> h).

End Js.

Import Js.

(** ** The API client and the program monad *)

(** The two methods of [api] the service calls, with their arguments as
    the source passes them: [api.get(url, config)] and
    [api.post(url, body)]. *)
Inductive request : Type :=
| Get (url : string) (config : value)
| Post (url : string) (body : value).

#[global] Instance request_eq_dec : EqDecision request.
Proof. solve_decision. Defined.

(** How a promise settles. *)
Inductive settled (A : Type) : Type :=
| Resolved (a : A)
| Rejected (e : exn).
Arguments Resolved {A} a.
Arguments Rejected {A} e.

(** The body of an [async] function, up to the operations the service
    uses.  [Await r k] stands for [const x = await api.m(...); k x]: the
    continuation only receives the value of a fulfilled promise. *)
Inductive prog (A : Type) : Type :=
| Ret (a : A)
| New (o : object) (k : loc → prog A)
| Member (v : value) (p : string) (k : value → prog A)
| Await (r : request) (k : value → prog A).
Arguments Ret {A} a.
Arguments New {A} o k.
Arguments Member {A} v p k.
Arguments Await {A} r k.

Fixpoint prog_bind {A B : Type} (f : A → prog B) (m : prog A) : prog B :=
  match m with
  | Ret a => f a
  | New o k => New o (λ l, prog_bind f (k l))
  | Member v p k => Member v p (λ x, prog_bind f (k x))
  | Await r k => Await r (λ x, prog_bind f (k x))
  end.

#[global] Instance prog_mret : MRet prog := @Ret.
#[global] Instance prog_mbind : MBind prog := @prog_bind.

Definition object_literal (o : object) : prog value := New o (λ l, Ret (VRef l)).
Definition member (v : value) (p : string) : prog value := Member v p Ret.
Definition await (r : request) : prog value := Await r Ret.

(** A default parameter value [x = d]: the initialiser [d] is evaluated
    when, and only when, the argument is [undefined]. *)
Definition default_param (x : value) (d : prog value) : prog value :=
  match x with
  | VUndefined => d
  | _ => mret x
  end.

(** A call [f(a0, a1, ...)] of a one-parameter function: a missing
    argument is [undefined], further arguments are ignored. *)
Definition invoke {A : Type} (f : value → prog A) (args : list value) : prog A :=
  f (default VUndefined (head args)).

(** ** [services/transactions.js] *)

Module Service.

(** <<
    export const getTransactions = async (filters = {}) => {
        const res = await api.get("/transactions", {params: filters});
        return res.data;
    }
    >> *)
Definition getTransactions (filters : value) : prog value :=
  filters ← default_param filters (object_literal ∅);
  config ← object_literal {[ "params" := filters ]};
  res ← await (Get "/transactions" config);
  member res "data".

(** <<
    export const createTransaction = async (data) => {
        const res = await api.post("/transactions", data);
        return res.data;
    }
    >> *)
Definition createTransaction (data : value) : prog value :=
  res ← await (Post "/transactions" data);
  member res "data".

End Service.

(** The two exports of the service. *)
Inductive endpoint : Type :=
| GetTransactions
| CreateTransaction.

Definition service (f : endpoint) : value → prog value :=
  match f with
  | GetTransactions => Service.getTransactions
  | CreateTransaction => Service.createTransaction
  end.

(** ** Running a program against a client *)

(** One call of the client as the interpreter saw it: the request, the
    store at the moment of the call, and how the returned promise
    settled. *)
Record call : Type := Call {
  call_req : request;
  call_heap : heap;
  call_result : settled value
}.

Record result (N A : Type) : Type := Result {
  outcome : settled A;
  final_heap : heap;
  final_net : N;
  trace : list call
}.
Arguments Result {N A} _ _ _ _.
Arguments outcome {N A} _.
Arguments final_heap {N A} _.
Arguments final_net {N A} _.
Arguments trace {N A} _.

Definition logged {N A : Type} (c : call) (r : result N A) : result N A :=
  Result (outcome r) (final_heap r) (final_net r) (c :: trace r).

Section Run.
Context {N : Type}.

(** The client is arbitrary code: it sees the request and the whole
    store, may change both the store and a state of its own (the network,
    the server, interceptors), and settles its promise either way. *)
Definition client : Type := request → heap → N → settled value * heap * N.

(** The [async] function has no [try]: a rejected [await] and a
    [TypeError] both end the body and reject its promise with that
    exception. *)
Fixpoint run {A : Type} (api : client) (p : prog A) (h : heap) (n : N) : result N A :=
  match p with
  | Ret a => Result (Resolved a) h n []
  | New o k => let '(l, h') := alloc h o in run api (k l) h' n
  | Member v f k =>
      match get_prop h v f with
      | inl x => run api (k x) h n
      | inr e => Result (Rejected e) h n []
      end
  | Await r k =>
      let '(s, h', n') := api r h n in
      let c := Call r h s in
      match s with
      | Resolved x => logged c (run api (k x) h' n')
      | Rejected e => Result (Rejected e) h' n' [c]
      end
  end.

End Run.
Arguments client N : clear implicits.

(** ** Several invocations in flight: the event loop *)

Module Loop.

(** An invocation runs synchronously up to its first [await], where it
    has handed its request to the client and is parked until the promise
    settles. *)
Inductive parked (A : Type) : Type :=
| Finished (s : settled A)
| Waiting (r : request) (k : value → prog A).
Arguments Finished {A} s.
Arguments Waiting {A} r k.

Fixpoint advance {A : Type} (p : prog A) (h : heap) : parked A * heap :=
  match p with
  | Ret a => (Finished (Resolved a), h)
  | New o k => let '(l, h') := alloc h o in advance (k l) h'
  | Member v f k =>
      match get_prop h v f with
      | inl x => advance (k x) h
      | inr e => (Finished (Rejected e), h)
      end
  | Await r k => (Waiting r k, h)
  end.

(** The page's view of the runtime: the store, the invocations awaiting
    a response (by invocation number), the settled ones with the value or
    exception their promise carries, and the requests handed to the client
    so far, oldest first. *)
Record state : Type := State {
  store : heap;
  pending : gmap nat (request * (value → prog value));
  finished : gmap nat (settled value);
  sent : list (nat * request);
  next : nat
}.

Definition init : state := State ∅ ∅ ∅ [] 0.

Definition park (id : nat) (pk : parked value) (h : heap) (st : state) : state :=
  match pk with
  | Finished s =>
      State h (delete id (pending st)) (<[id := s]> (finished st)) (sent st) (next st)
  | Waiting r k =>
      State h (<[id := (r, k)]> (pending st)) (finished st) (sent st ++ [(id, r)]) (next st)
  end.

(** Calling an [async] function. *)
Definition spawn (p : prog value) (st : state) : state :=
  let '(pk, h) := advance p (store st) in
  park (next st) pk h (State (store st) (pending st) (finished st) (sent st) (S (next st))).

(** The promise invocation [id] awaits settles; nothing happens when
    [id] awaits nothing. *)
Definition settle (id : nat) (s : settled value) (st : state) : state :=
  match pending st !! id with
  | None => st
  | Some (_, k) =>
      match s with
      | Rejected e => park id (Finished (Rejected e)) (store st) st
      | Resolved x => let '(pk, h) := advance (k x) (store st) in park id pk h st
      end
  end.

(** What can happen, in any order: the page calls one of the two service
    functions, a promise settles, or code outside the service (the client
    building a response object, the page) changes the store. *)
Inductive action : Type :=
| Invoke (f : endpoint) (args : list value)
| Settle (id : nat) (s : settled value)
| Outside (g : heap → heap).

Definition step (a : action) (st : state) : state :=
  match a with
  | Invoke f args => spawn (invoke (service f) args) st
  | Settle id s => settle id s st
  | Outside g => State (g (store st)) (pending st) (finished st) (sent st) (next st)
  end.

Inductive reachable : state → Prop :=
| reach_init : reachable init
| reach_step (a : action) (st : state) : reachable st → reachable (step a st).

End Loop.

(** ** [components/Navbar.jsx] and [App.jsx] *)

Module React.

(** The type of a JSX element: a host tag ([<div>]) or a component
    ([<Navbar />]). *)
Inductive kind : Type :=
| Host (tag : string)
| Component (name : string).

#[global] Instance kind_eq_dec : EqDecision kind.
Proof. solve_decision. Defined.

Inductive element : Type :=
| Elem (type : kind) (props : list (string * attr)) (children : list element)
| Text (s : string)
with attr : Type :=
| AStr (s : string)
| AJsx (e : element)
| AClassName (f : bool → string)
| AImport (path : string).

Definition prop (name : string) (props : list (string * attr)) : option attr :=
  snd <$> List.find (λ kv, bool_decide (kv.1 = name)) props.

(** <<
    export default function Navbar() { return ( <nav className="navbar"> ... </nav> ); }
    >> *)
Definition nav_link_class (isActive : bool) : string :=
  if isActive then "nav-link active" else "nav-link".

Definition Navbar : element :=
  Elem (Host "nav") [("className", AStr "navbar")] [
    Elem (Host "div") [("className", AStr "navbar-left")] [
      Elem (Host "img") [("src", AImport "../assets/logo.png"); ("alt", AStr "App logo");
                         ("className", AStr "navbar-logo-img")] [];
      Elem (Host "h1") [("className", AStr "navbar-logo-text")] [Text "MyFinanceApp"]
    ];
    Elem (Host "div") [("className", AStr "navbar-links")] [
      Elem (Component "NavLink") [("to", AStr "/"); ("className", AClassName nav_link_class)]
        [Text "Home"];
      Elem (Component "NavLink") [("to", AStr "/transactions"); ("className", AClassName nav_link_class)]
        [Text "Transactions"];
      Elem (Component "NavLink") [("to", AStr "/categories"); ("className", AClassName nav_link_class)]
        [Text "Categories"]
    ]
  ].

(** <<
    function App() { return ( <Router> ... </Router> ) }
    >> *)
Definition App : element :=
  Elem (Component "Router") [] [
    Elem (Host "div") [("className", AStr "min-h-screen bg-gray-50")] [
      Elem (Component "Navbar") [] [];
      Elem (Host "div") [("className", AStr "p-6")] [
        Elem (Component "Routes") [] [
          Elem (Component "Route") [("path", AStr "/"); ("element", AJsx (Elem (Component "Home") [] []))] [];
          Elem (Component "Route") [("path", AStr "/transactions");
                                    ("element", AJsx (Elem (Component "Transactions") [] []))] [];
          Elem (Component "Route") [("path", AStr "/categories");
                                    ("element", AJsx (Elem (Component "Categories") [] []))] []
        ]
      ]
    ]
  ].

(** The route a [<Route path=... element=... />] declares. *)
Definition route_of (e : element) : option (string * element) :=
  match e with
  | Elem (Component "Route") props _ =>
      match prop "path" props, prop "element" props with
      | Some (AStr path), Some (AJsx page) => Some (path, page)
      | _, _ => None
      end
  | _ => None
  end.

(** Every route declared under a [<Routes>] of the tree, in document
    order. *)
Fixpoint routes (e : element) : list (string * element) :=
  match e with
  | Elem (Component "Routes") _ children => omap route_of children
  | Elem _ _ children => flat_map routes children
  | Text _ => []
  end.

(** The target of every [<NavLink to=...>] of the tree, in document
    order. *)
Fixpoint nav_targets (e : element) : list string :=
  match e with
  | Elem type props children =>
      match type, prop "to" props with
      | Component "NavLink", Some (AStr to) => [to]
      | _, _ => []
      end ++ flat_map nav_targets children
  | Text _ => []
  end.

(** The page of the first route whose path is the location, letter for
    letter.  The router also accepts other spellings of a path (another
    case, trailing slashes); they are not covered here, and the statements
    below use [outlet] at the declared paths only, or do not depend on
    what it returns. *)
Definition outlet (table : list (string * element)) (location : string) : option element :=
  snd <$> List.find (λ r, bool_decide (r.1 = location)) table.

(** The tree at a location: [<Routes>] gives way to the page of the
    matching route, or to nothing; everything else stays. *)
Fixpoint view (location : string) (e : element) : list element :=
  match e with
  | Elem (Component "Routes") _ children =>
      option_list (outlet (omap route_of children) location)
  | Elem type props children => [Elem type props (flat_map (view location) children)]
  | Text s => [Text s]
  end.

(** How many elements of type [t] a tree holds. *)
Fixpoint count (t : kind) (e : element) : nat :=
  match e with
  | Elem type _ children =>
      (if decide (type = t) then 1 else 0) + list_sum (map (count t) children)
  | Text _ => 0
  end.

End React.

(** ** Vocabulary of the statements *)

(** The query parameters a [get] carries: the object its [config.params]
    refers to, in the store as the client receives it. *)
Definition query_params (c : call) : option object :=
  match call_req c with
  | Get _ (VRef config) =>
      match call_heap c !! config with
      | Some o =>
          match o !! "params" with
          | Some (VRef p) => call_heap c !! p
          | _ => None
          end
      | None => None
      end
  | _ => None
  end.

(** The value in place of the query parameters, whatever it is. *)
Definition params_field (c : call) : option value :=
  match call_req c with
  | Get _ (VRef config) =>
      match call_heap c !! config with
      | Some o => o !! "params"
      | None => None
      end
  | _ => None
  end.

(** What an invocation returns once its promise has settled with [s],
    in the store [h]: [s.data], or the exception. *)
Definition read_data (h : heap) (s : settled value) : settled value :=
  match s with
  | Resolved x =>
      match get_prop h x "data" with
      | inl d => Resolved d
      | inr e => Rejected e
      end
  | Rejected e => Rejected e
  end.

(** The rest of an invocation once it is parked. *)
Definition resume {N A : Type} (api : client N) (pk : Loop.parked A * heap) (n : N) : result N A :=
  match pk with
  | (Loop.Finished s, h) => Result s h n []
  | (Loop.Waiting r k, h) =>
      let '(s, h', n') := api r h n in
      match s with
      | Resolved x => logged (Call r h s) (run api (k x) h' n')
      | Rejected e => Result (Rejected e) h' n' [Call r h s]
      end
  end.

(** The path a request goes to. *)
Definition request_url (r : request) : string :=
  match r with
  | Get url _ | Post url _ => url
  end.

(** What is left of a run once its first part is over: the second part
    starts in the store and with the client as the first part left them,
    unless the first part was rejected, which ends the run. *)
Definition and_then {N A B : Type} (r : result N A) (k : A → heap → N → result N B) : result N B :=
  match outcome r with
  | Resolved a =>
      let r' := k a (final_heap r) (final_net r) in
      Result (outcome r') (final_heap r') (final_net r') (trace r ++ trace r')
  | Rejected e => Result (Rejected e) (final_heap r) (final_net r) (trace r)
  end.

(** A caller that awaits one call of the service and then returns
    another: [await f(...a); return await g(...b)]. *)
Definition in_sequence (f g : endpoint) (a b : list value) : prog value :=
  _ ← invoke (service f) a; invoke (service g) b.

(** A client that never takes an object out of the store. *)
Definition keeps_objects {N : Type} (api : client N) : Prop :=
  ∀ r h n, dom h ⊆ dom (api r h n).1.2.

(** Several steps of the page, the first of the list first. *)
Definition steps (acts : list Loop.action) (st : Loop.state) : Loop.state :=
  foldl (λ st a, Loop.step a st) st acts.

(** How many calls of the service a run of the page makes. *)
Definition is_invoke (a : Loop.action) : bool :=
  match a with
  | Loop.Invoke _ _ => true
  | _ => false
  end.

Definition calls_made (acts : list Loop.action) : nat :=
  length (List.filter is_invoke acts).

(** ** Clients to run the service against *)

Module Demo.

(** A server that answers every request with a status and a body, and
    remembers what it was asked. *)
Definition server (status : Z) (body : value) : client (list request) :=
  λ r h log,
    let '(resp, h') := alloc h {[ "data" := body; "status" := VNum status ]} in
    (Resolved (VRef resp), h', (log ++ [r])%list).

Definition ok_server : value → client (list request) := server 200.

(** A network that is down. *)
Definition network_error : exn := Thrown (VStr "Network Error").

Definition offline : client (list request) :=
  λ r h log, (Rejected network_error, h, (log ++ [r])%list).

(** A client whose promise is fulfilled with [undefined]. *)
Definition mute : client unit := λ r h n, (Resolved VUndefined, h, n).

(** A client that empties every object it can reach before it answers. *)
Definition meddling : client unit :=
  λ r h n, (Resolved VUndefined, (λ _ : object, ∅) <$> h, n).

(** A store holding the filters [{category: "food"}] at reference 1. *)
Definition food_filters : object := {[ "category" := VStr "food" ]}.
Definition food_store : heap := {[ 1%positive := food_filters ]}.

(** A store holding a payload [{amount: 12, category: "food"}]. *)
Definition lunch : object := {[ "amount" := VNum 12; "category" := VStr "food" ]}.
Definition lunch_store : heap := {[ 1%positive := lunch ]}.

End Demo.

(** * Properties *)

(** ** The store *)

Section Store.
Implicit Types (h : heap) (o : object) (l : loc).

Lemma alloc_fresh h o : h !! (alloc h o).1 = None.
Proof. apply not_elem_of_dom, is_fresh. Qed.

Lemma alloc_lookup_new h o : (alloc h o).2 !! (alloc h o).1 = Some o.
Proof. apply lookup_insert_eq. Qed.

Lemma alloc_lookup_old h o l : is_Some (h !! l) → (alloc h o).2 !! l = h !! l.
Proof.
  intros Hl. apply lookup_insert_ne. intros Heq.
  pose proof (alloc_fresh h o) as Hfresh. cbn in Hfresh.
  rewrite Heq in Hfresh. rewrite Hfresh in Hl. by destruct Hl.
Qed.

(** An object literal extends the store: what was there stays. *)
Lemma alloc_extends h o : h ⊆ (alloc h o).2.
Proof. apply insert_subseteq, (alloc_fresh h o). Qed.

End Store.

(** ** The interpreter and the event loop agree *)

Section RunFacts.
Context {N : Type}.
Implicit Types (api : client N) (h : heap) (n : N).

(** Running a program is running it to its first [await], and then the
    rest. *)
Lemma run_advance {A : Type} api (p : prog A) h n :
  run api p h n = resume api (Loop.advance p h) n.
Proof.
  revert h. induction p as [a | o k IH | v f k IH | r k _]; intros h; cbn.
  - done.
  - apply IH.
  - destruct (get_prop h v f) as [x | e]; [apply IH | done].
  - done.
Qed.

(** Where the two service bodies park. *)
Lemma advance_createTransaction data h :
  Loop.advance (Service.createTransaction data) h
  = (Loop.Waiting (Post "/transactions" data) (λ res, member res "data"), h).
Proof. done. Qed.

Lemma advance_getTransactions_given filters h :
  filters ≠ VUndefined →
  Loop.advance (Service.getTransactions filters) h
  = (Loop.Waiting (Get "/transactions" (VRef (alloc h {[ "params" := filters ]}).1))
                  (λ res, member res "data"),
     (alloc h {[ "params" := filters ]}).2).
Proof. by destruct filters. Qed.

Lemma advance_getTransactions_default h :
  let fh := alloc h ∅ in
  let ch := alloc fh.2 {[ "params" := VRef fh.1 ]} in
  Loop.advance (Service.getTransactions VUndefined) h
  = (Loop.Waiting (Get "/transactions" (VRef ch.1)) (λ res, member res "data"), ch.2).
Proof. done. Qed.

(** The rest of either body: one property read. *)
Lemma run_member api (res : value) h n :
  run api (member res "data") h n
  = Result (read_data h (Resolved res)) h n [].
Proof. cbn. by destruct (get_prop h res "data"). Qed.

(** Every invocation of the service parks exactly once, on a request to
    ["/transactions"], in a store that extends the one it started in, and
    with nothing left to do but read [data]. *)
Lemma service_parks (f : endpoint) (arg : value) h :
  ∃ r hc, Loop.advance (service f arg) h = (Loop.Waiting r (λ res, member res "data"), hc)
          ∧ h ⊆ hc.
Proof.
  destruct f; cbn [service].
  - destruct (decide (arg = VUndefined)) as [-> | Hne].
    + eexists _, _. split; [apply advance_getTransactions_default |].
      cbn zeta. etrans; apply alloc_extends.
    + eexists _, _. split; [by apply advance_getTransactions_given |].
      apply alloc_extends.
  - eexists _, _. split; [apply advance_createTransaction | done].
Qed.

(** The whole run of an invocation, in terms of the single answer of
    the client. *)
Lemma run_service api (f : endpoint) (arg : value) h n :
  ∃ r hc, Loop.advance (service f arg) h = (Loop.Waiting r (λ res, member res "data"), hc)
    ∧ h ⊆ hc
    ∧ run api (service f arg) h n
      = let '(s, h', n') := api r hc n in
        Result (read_data h' s) h' n' [Call r hc s].
Proof.
  destruct (service_parks f arg h) as (r & hc & Hadv & Hsub).
  exists r, hc. split_and!; [done.. |].
  rewrite run_advance, Hadv. unfold resume.
  destruct (api r hc n) as [[s h'] n']. destruct s as [x | e]; [| done].
  by rewrite run_member.
Qed.

End RunFacts.

(** ** The transactions service *)

Section ServiceProperties.
Context {N : Type}.
Implicit Types (api : client N) (h : heap) (n : N) (f : endpoint).

(** C1. For every filters object, [getTransactions(filters)] makes one
    call of the client, a [get] of ["/transactions"] whose configuration
    has the filters object itself, by reference and as it was given, as
    [params]; and when the client answers with a response object, the
    invocation returns the [data] property of that object ([undefined]
    when there is none). *)
Theorem getTransactions_sends_filters api h n (l : loc) (o : object) :
  h !! l = Some o →
  let r := run api (Service.getTransactions (VRef l)) h n in
  ∃ c, trace r = [c]
    ∧ (∃ config, call_req c = Get "/transactions" (VRef config))
    ∧ params_field c = Some (VRef l)
    ∧ query_params c = Some o
    ∧ ∀ resp body,
        call_result c = Resolved (VRef resp) →
        final_heap r !! resp = Some body →
        outcome r = Resolved (default VUndefined (body !! "data")).
Proof.
  intros Hl r. subst r.
  rewrite run_advance, advance_getTransactions_given by done.
  set (cfg := {[ "params" := VRef l ]} : object).
  pose proof (alloc_lookup_new h cfg) as Hnew.
  pose proof (alloc_lookup_old h cfg l (mk_is_Some _ _ Hl)) as Hold.
  rewrite Hl in Hold.
  unfold resume.
  destruct (api (Get "/transactions" (VRef (alloc h cfg).1)) (alloc h cfg).2 n)
    as [[s h'] n'] eqn:Hapi.
  assert (Hparams : params_field (Call (Get "/transactions" (VRef (alloc h cfg).1)) (alloc h cfg).2 s)
                    = Some (VRef l)).
  { unfold params_field. cbn [call_req call_heap]. rewrite Hnew. apply lookup_singleton_eq. }
  assert (Hquery : query_params (Call (Get "/transactions" (VRef (alloc h cfg).1)) (alloc h cfg).2 s)
                   = Some o).
  { unfold query_params. cbn [call_req call_heap]. rewrite Hnew.
    unfold cfg at 1. rewrite lookup_singleton_eq. exact Hold. }
  destruct s as [x | e].
  - rewrite run_member. eexists. split; [reflexivity |].
    split; [by eexists |]. split; [exact Hparams |]. split; [exact Hquery |].
    intros resp body [= ->] Hbody. cbn in Hbody |- *. by rewrite Hbody.
  - eexists. split; [reflexivity |].
    split; [by eexists |]. split; [exact Hparams |]. split; [exact Hquery |].
    intros resp body [=].
Qed.

(** C2. For every payload, [createTransaction(data)] makes one call of
    the client, a [post] to ["/transactions"] whose body is [data] itself,
    in the store exactly as the caller left it; and when the client
    answers with a response object, the invocation returns the [data]
    property of that object. *)
Theorem createTransaction_posts_payload api h n (data : value) :
  let r := run api (Service.createTransaction data) h n in
  ∃ c, trace r = [c]
    ∧ call_req c = Post "/transactions" data
    ∧ call_heap c = h
    ∧ ∀ resp body,
        call_result c = Resolved (VRef resp) →
        final_heap r !! resp = Some body →
        outcome r = Resolved (default VUndefined (body !! "data")).
Proof.
  intros r. subst r.
  rewrite run_advance, advance_createTransaction. unfold resume.
  destruct (api (Post "/transactions" data) h n) as [[s h'] n'].
  destruct s as [x | e].
  - rewrite run_member. eexists. split_and!; [reflexivity.. |].
    intros resp body [= ->] Hbody. cbn in Hbody |- *. by rewrite Hbody.
  - eexists. split_and!; [reflexivity.. |]. intros resp body [=].
Qed.

(** C3. [getTransactions()] makes one call of the client, a [get] of
    ["/transactions"] whose query parameters are an empty object. *)
Theorem getTransactions_no_filters api h n :
  let r := run api (invoke Service.getTransactions []) h n in
  ∃ c, trace r = [c]
    ∧ (∃ config, call_req c = Get "/transactions" (VRef config))
    ∧ query_params c = Some ∅.
Proof.
  intros r. subst r. unfold invoke. cbn [head default].
  rewrite run_advance, advance_getTransactions_default. cbn zeta.
  set (fh := alloc h ∅).
  set (cfg := {[ "params" := VRef fh.1 ]} : object).
  pose proof (alloc_lookup_new fh.2 cfg) as Hnew.
  assert (Hempty : fh.2 !! fh.1 = Some ∅) by apply alloc_lookup_new.
  pose proof (alloc_lookup_old fh.2 cfg fh.1 (mk_is_Some _ _ Hempty)) as Hold.
  rewrite Hempty in Hold.
  unfold resume.
  destruct (api (Get "/transactions" (VRef (alloc fh.2 cfg).1)) (alloc fh.2 cfg).2 n)
    as [[s h'] n'].
  assert (Hquery : query_params (Call (Get "/transactions" (VRef (alloc fh.2 cfg).1))
                                      (alloc fh.2 cfg).2 s) = Some ∅).
  { unfold query_params. cbn [call_req call_heap]. rewrite Hnew.
    unfold cfg at 1. rewrite lookup_singleton_eq. exact Hold. }
  destruct s as [x | e].
  - rewrite run_member. eexists. split; [reflexivity |]. split; [by eexists | exact Hquery].
  - eexists. split; [reflexivity |]. split; [by eexists | exact Hquery].
Qed.

(** C4. When the call of the client made by [getTransactions] or
    [createTransaction] is rejected with an exception, the invocation is
    rejected with that same exception, and the rejected call is the only
    one it made. *)
Theorem service_rejection_propagates api f (arg : value) h n (c : call) (e : exn) :
  let r := run api (service f arg) h n in
  c ∈ trace r →
  call_result c = Rejected e →
  outcome r = Rejected e ∧ trace r = [c].
Proof.
  intros r Hin Hrej. subst r.
  destruct (run_service api f arg h n) as (rq & hc & _ & _ & Hrun).
  rewrite Hrun in Hin |- *. clear Hrun.
  destruct (api rq hc n) as [[s h'] n']. cbn in Hin |- *.
  apply list_elem_of_singleton in Hin as ->. cbn in Hrej. subst s. done.
Qed.

(** C5. An invocation of [getTransactions] or [createTransaction] makes
    exactly one call of the client, whatever the client answers.  Before
    the call the store is the caller's, extended at most by fresh
    objects; after it, the store and the state of the client are the ones
    the client left.  The run has no other component: the service owns no
    state that a later invocation could see. *)
Theorem service_calls_client_once api f (arg : value) h n :
  let r := run api (service f arg) h n in
  ∃ c, trace r = [c]
    ∧ h ⊆ call_heap c
    ∧ api (call_req c) (call_heap c) n = (call_result c, final_heap r, final_net r).
Proof.
  intros r. subst r.
  destruct (run_service api f arg h n) as (rq & hc & _ & Hsub & Hrun).
  rewrite Hrun. clear Hrun.
  destruct (api rq hc n) as [[s h'] n'] eqn:Hapi. cbn.
  eexists. split; [reflexivity |]. cbn. by split.
Qed.

End ServiceProperties.

Section ServiceFrame.
Context {N : Type}.
Implicit Types (api : client N) (h : heap) (n : N) (f : endpoint).


End ServiceFrame.

(** C9. The result of an invocation is a function of the [data]
    property of the response alone: two invocations of the same function
    on the same argument, run against any two clients from any two
    stores, whose response objects agree on [data] and differ at will on
    every other property, return the same value, and that value is the
    [data] property. *)
Theorem service_returns_data_only {N1 N2 : Type} (api1 : client N1) (api2 : client N2)
    (f : endpoint) (arg : value) (h1 h2 : heap) (n1 : N1) (n2 : N2)
    (c1 c2 : call) (resp1 resp2 : loc) (body1 body2 : object) :
  let r1 := run api1 (service f arg) h1 n1 in
  let r2 := run api2 (service f arg) h2 n2 in
  c1 ∈ trace r1 →
  c2 ∈ trace r2 →
  call_result c1 = Resolved (VRef resp1) →
  call_result c2 = Resolved (VRef resp2) →
  final_heap r1 !! resp1 = Some body1 →
  final_heap r2 !! resp2 = Some body2 →
  body1 !! "data" = body2 !! "data" →
  outcome r1 = Resolved (default VUndefined (body1 !! "data")) ∧ outcome r1 = outcome r2.
Proof.
  intros r1 r2. subst r1 r2.
  destruct (run_service api1 f arg h1 n1) as (rq1 & hc1 & _ & _ & ->).
  destruct (run_service api2 f arg h2 n2) as (rq2 & hc2 & _ & _ & ->).
  destruct (api1 rq1 hc1 n1) as [[s1 k1] m1], (api2 rq2 hc2 n2) as [[s2 k2] m2].
  cbn [trace final_heap outcome].
  intros ->%list_elem_of_singleton ->%list_elem_of_singleton.
  cbn [call_result]. intros -> -> Hb1 Hb2 Hdata.
  cbn [read_data get_prop]. rewrite Hb1, Hb2, Hdata. done.
Qed.

(** ** The statements at work *)

(** [getTransactions({category: "food"})] against a server that answers
    with the body ["rows"] and status 200. *)
Lemma getTransactions_sends_filters_witness :
  let r := run (Demo.ok_server (VStr "rows")) (Service.getTransactions (VRef 1%positive))
               Demo.food_store [] in
  query_params <$> trace r = [Some Demo.food_filters]
  ∧ outcome r = Resolved (VStr "rows").
Proof.
  intros r.
  destruct (getTransactions_sends_filters (Demo.ok_server (VStr "rows")) Demo.food_store []
              1%positive Demo.food_filters eq_refl) as (c & Htr & _ & _ & Hq & Hret).
  fold r in Htr, Hret. split.
  - rewrite Htr. cbn. by rewrite Hq.
  - rewrite (Hret 3%positive {[ "data" := VStr "rows"; "status" := VNum 200 ]});
      [vm_compute; reflexivity | |].
    + assert (Hc : [c] = [Call (Get "/transactions" (VRef 2%positive))
                            (alloc Demo.food_store {[ "params" := VRef 1%positive ]}).2
                            (Resolved (VRef 3%positive))]) by (rewrite <- Htr; vm_compute; reflexivity).
      injection Hc as ->. reflexivity.
    + vm_compute. reflexivity.
Defined.

(** [createTransaction({amount: 12, category: "food"})] against a server
    that answers with the body ["created"]. *)
Lemma createTransaction_posts_payload_witness :
  let r := run (Demo.ok_server (VStr "created")) (Service.createTransaction (VRef 1%positive))
               Demo.lunch_store [] in
  call_req <$> trace r = [Post "/transactions" (VRef 1%positive)]
  ∧ call_heap <$> trace r = [Demo.lunch_store]
  ∧ outcome r = Resolved (VStr "created").
Proof.
  intros r.
  destruct (createTransaction_posts_payload (Demo.ok_server (VStr "created")) Demo.lunch_store []
              (VRef 1%positive)) as (c & Htr & Hreq & Hh & Hret).
  fold r in Htr, Hret. rewrite Htr. split_and!.
  { cbn. by rewrite Hreq. }
  { cbn. by rewrite Hh. }
  rewrite (Hret 2%positive {[ "data" := VStr "created"; "status" := VNum 200 ]});
    [vm_compute; reflexivity | |].
  - assert (Hc : [c] = [Call (Post "/transactions" (VRef 1%positive)) Demo.lunch_store
                          (Resolved (VRef 2%positive))])
      by (rewrite <- Htr; vm_compute; reflexivity).
    injection Hc as ->. reflexivity.
  - vm_compute. reflexivity.
Defined.

(** Both functions with the network down: the network error comes back
    as it is. *)
Lemma service_rejection_propagates_witness :
  let c := Call (Post "/transactions" (VRef 1%positive)) Demo.lunch_store
             (Rejected Demo.network_error) in
  let r := run Demo.offline (service CreateTransaction (VRef 1%positive)) Demo.lunch_store [] in
  outcome r = Rejected Demo.network_error ∧ trace r = [c].
Proof.
  intros c.
  apply (service_rejection_propagates Demo.offline CreateTransaction (VRef 1%positive)
           Demo.lunch_store [] c Demo.network_error).
  - vm_compute. apply list_elem_of_here.
  - reflexivity.
Defined.



(** The same request answered with status 200 and with status 201: the
    status does not show in the result. *)
Lemma service_returns_data_only_witness :
  let r1 := run (Demo.server 200 (VStr "rows")) (service GetTransactions (VRef 1%positive))
                Demo.food_store [] in
  let r2 := run (Demo.server 201 (VStr "rows")) (service GetTransactions (VRef 1%positive))
                Demo.food_store [] in
  outcome r1 = Resolved (default VUndefined
                 (({[ "data" := VStr "rows"; "status" := VNum 200 ]} : object) !! "data"))
  ∧ outcome r1 = outcome r2.
Proof.
  pose (hc := (alloc Demo.food_store {[ "params" := VRef 1%positive ]}).2).
  pose (c := Call (Get "/transactions" (VRef 2%positive)) hc (Resolved (VRef 3%positive))).
  apply (service_returns_data_only (Demo.server 200 (VStr "rows")) (Demo.server 201 (VStr "rows"))
           GetTransactions (VRef 1%positive) Demo.food_store Demo.food_store [] [] c c
           3%positive 3%positive
           {[ "data" := VStr "rows"; "status" := VNum 200 ]}
           {[ "data" := VStr "rows"; "status" := VNum 201 ]}).
  - vm_compute. apply list_elem_of_here.
  - vm_compute. apply list_elem_of_here.
  - reflexivity.
  - reflexivity.
  - vm_compute. reflexivity.
  - vm_compute. reflexivity.
  - vm_compute. reflexivity.
Defined.

(** ** Edges of the model *)

(** Only [undefined] triggers the default parameter: [null] is passed on
    as it is. *)
Example getTransactions_null_filters :
  params_field <$> trace (run Demo.mute (Service.getTransactions VNull) ∅ ()) = [Some VNull].
Proof. vm_compute. reflexivity. Qed.

(** A promise fulfilled with [undefined] makes [res.data] throw, and the
    invocation is rejected with that [TypeError]; the one call has been
    made all the same. *)
Example createTransaction_no_response :
  let r := run Demo.mute (Service.createTransaction (VRef 1%positive)) Demo.lunch_store () in
  outcome r = Rejected (TypeError "Cannot read properties of undefined (reading 'data')")
  ∧ call_req <$> trace r = [Post "/transactions" (VRef 1%positive)].
Proof. vm_compute. split; reflexivity. Qed.

(** A response object without a [data] property reads as [undefined]. *)
Example getTransactions_no_data :
  let api : client unit := λ r h n, (Resolved (VRef 1%positive), h, n) in
  outcome (run api (invoke Service.getTransactions []) Demo.food_store ())
  = Resolved VUndefined.
Proof. vm_compute. reflexivity. Qed.

(** What becomes of the argument during the call is up to the client. *)
Example createTransaction_meddling_client :
  final_heap (run Demo.meddling (Service.createTransaction (VRef 1%positive)) Demo.lunch_store ())
    !! 1%positive = Some ∅.
Proof. vm_compute. reflexivity. Qed.

(** ** Invocations in flight *)

Section LoopProperties.
Import Loop.
Implicit Types (st : state) (id i j : nat) (s : settled value).

Lemma advance_member (res : value) (h : heap) :
  advance (member res "data") h = (Finished (read_data h (Resolved res)), h).
Proof. cbn. by destruct (get_prop h res "data"). Qed.

(** Calling a service function parks the invocation under the next
    number, with its request sent, and leaves the others as they are. *)
Lemma step_invoke (f : endpoint) (args : list value) st :
  ∃ r hc,
    step (Invoke f args) st
    = State hc (<[next st := (r, λ res, member res "data")]> (pending st)) (finished st)
            (sent st ++ [(next st, r)]) (S (next st)).
Proof.
  destruct (service_parks f (default VUndefined (head args)) (store st)) as (r & hc & Hadv & _).
  exists r, hc. cbn [step]. unfold spawn, invoke. by rewrite Hadv.
Qed.

(** All that an invocation of the service has left to do once it is
    parked is to read [data]. *)
Lemma reachable_pending st id (r : request) (k : value → prog value) :
  reachable st → pending st !! id = Some (r, k) → k = λ res, member res "data".
Proof.
  intros Hreach. revert id r k.
  induction Hreach as [| a st _ IH]; intros id r k.
  - unfold init. cbn [pending]. by rewrite lookup_empty.
  - destruct a as [f args | id' s | g].
    + destruct (step_invoke f args st) as (r' & hc & ->). cbn [pending].
      rewrite lookup_insert. case_decide; [by intros [= _ <-] | apply IH].
    + cbn [step]. unfold settle.
      destruct (pending st !! id') as [[r' k'] |] eqn:Hid'; [| apply IH].
      pose proof (IH _ _ _ Hid') as ->.
      destruct s as [x | e].
      * rewrite advance_member. cbn [park pending].
        rewrite lookup_delete. case_decide; [done | apply IH].
      * cbn [park pending]. rewrite lookup_delete. case_decide; [done | apply IH].
    + cbn [step pending]. apply IH.
Qed.

(** A promise that settles completes its invocation, and only it. *)
Lemma settle_reachable st id s :
  reachable st →
  settle id s st
  = match pending st !! id with
    | Some _ =>
        State (store st) (delete id (pending st)) (<[id := read_data (store st) s]> (finished st))
              (sent st) (next st)
    | None => st
    end.
Proof.
  intros Hreach. unfold settle.
  destruct (pending st !! id) as [[r k] |] eqn:Hid; [| done].
  apply (reachable_pending _ _ _ _ Hreach) in Hid as ->.
  destruct s as [x | e]; [by rewrite advance_member | done].
Qed.

(** C7. At any point of any run of the page, calling a service function
    sends its request at once, whatever else is in flight, and changes
    neither the invocations that wait nor the ones that are done; the
    promises in flight may settle in either order, to the same effect;
    and when one settles, its invocation completes with the [data] of its
    own response (or its own exception) while every other invocation,
    waiting or done, stays as it is. *)
Theorem requests_independent st :
  reachable st →
  (∀ f args, ∃ r k,
     let st' := step (Invoke f args) st in
     sent st' = (sent st ++ [(next st, r)])%list
     ∧ pending st' = <[next st := (r, k)]> (pending st)
     ∧ finished st' = finished st)
  ∧ (∀ i j si sj, i ≠ j → settle i si (settle j sj st) = settle j sj (settle i si st))
  ∧ (∀ i s, is_Some (pending st !! i) →
       finished (settle i s st) !! i = Some (read_data (store st) s)
       ∧ ∀ j, j ≠ i →
           pending (settle i s st) !! j = pending st !! j
           ∧ finished (settle i s st) !! j = finished st !! j).
Proof.
  intros Hreach. split_and!.
  - intros f args. destruct (step_invoke f args st) as (r & hc & ->). by eexists _, _.
  - intros i j si sj Hij.
    pose proof (reach_step (Settle j sj) st Hreach) as Hreachj.
    pose proof (reach_step (Settle i si) st Hreach) as Hreachi.
    cbn [step] in Hreachi, Hreachj.
    rewrite (settle_reachable _ i si Hreachj), (settle_reachable _ j sj Hreachi).
    rewrite !(settle_reachable st) by done.
    destruct (pending st !! i) as [ki |] eqn:Hi, (pending st !! j) as [kj |] eqn:Hj;
      cbn [pending store finished sent next];
      rewrite ?lookup_delete_ne, ?Hi, ?Hj by done; [| done..].
    f_equal; [apply delete_delete | by apply insert_insert_ne].
  - intros i s [ki Hi]. rewrite settle_reachable, Hi by done. cbn [pending finished store].
    split; [apply lookup_insert_eq |].
    intros j Hji. by rewrite lookup_delete_ne, lookup_insert_ne.
Qed.

End LoopProperties.

(** A page that has called both functions, with the two promises
    settling one way round or the other. *)
Lemma requests_independent_witness :
  let st := Loop.step (Loop.Invoke CreateTransaction [VRef 1%positive])
              (Loop.step (Loop.Invoke GetTransactions [])
                 (Loop.step (Loop.Outside (λ _, Demo.lunch_store)) Loop.init)) in
  let s0 := Resolved (VRef 1%positive) in
  let s1 := Rejected Demo.network_error in
  Loop.settle 0 s0 (Loop.settle 1 s1 st) = Loop.settle 1 s1 (Loop.settle 0 s0 st).
Proof.
  intros st s0 s1.
  apply (proj1 (proj2 (requests_independent st
                         (Loop.reach_step _ _ (Loop.reach_step _ _
                            (Loop.reach_step _ _ Loop.reach_init)))))).
  lia.
Defined.

(** ** The App shell *)

Section Shell.
Import React.

(** C6. [App] is a [Router] around the layout; its [Routes] declare
    exactly three routes, ["/"] to [Home], ["/transactions"] to
    [Transactions] and ["/categories"] to [Categories]; and at every
    location, matched or not, the tree holds the [Navbar] once. *)
Theorem App_composes_router_and_layout :
  (∃ children, App = Elem (Component "Router") [] children)
  ∧ routes App = [ ("/", Elem (Component "Home") [] []);
                   ("/transactions", Elem (Component "Transactions") [] []);
                   ("/categories", Elem (Component "Categories") [] []) ]
  ∧ ∀ location, list_sum (count (Component "Navbar") <$> view location App) = 1.
Proof.
  split; [by eexists |]. split; [reflexivity |].
  intros location. cbn.
  unfold outlet. cbn.
  repeat (case_bool_decide; cbn); reflexivity.
Qed.

(** C10. Every target of a [NavLink] of the [Navbar], which are ["/"],
    ["/transactions"] and ["/categories"], is the path of a route that
    [App] declares, and the router has a page for it. *)
Theorem nav_links_are_routed (to : string) :
  to ∈ nav_targets Navbar →
  to ∈ ["/"; "/transactions"; "/categories"]
  ∧ ∃ page, (to, page) ∈ routes App ∧ outlet (routes App) to = Some page.
Proof.
  intros Hto.
  assert (Hnav : nav_targets Navbar = ["/"; "/transactions"; "/categories"]) by reflexivity.
  rewrite Hnav in Hto. split; [done |].
  assert (Hroutes : routes App = [ ("/", Elem (Component "Home") [] []);
                                   ("/transactions", Elem (Component "Transactions") [] []);
                                   ("/categories", Elem (Component "Categories") [] []) ])
    by reflexivity.
  rewrite Hroutes.
  apply elem_of_cons in Hto as [-> | Hto];
    [eexists; split; [apply list_elem_of_here | reflexivity] |].
  apply elem_of_cons in Hto as [-> | Hto];
    [eexists; split; [apply list_elem_of_further, list_elem_of_here | reflexivity] |].
  apply elem_of_cons in Hto as [-> | Hto];
    [eexists; split; [do 2 apply list_elem_of_further; apply list_elem_of_here | reflexivity] |].
  by apply not_elem_of_nil in Hto.
Qed.

Lemma nav_links_are_routed_witness :
  "/transactions" ∈ ["/"; "/transactions"; "/categories"]
  ∧ ∃ page, ("/transactions", page) ∈ routes App
            ∧ outlet (routes App) "/transactions" = Some page.
Proof.
  apply (nav_links_are_routed "/transactions").
  apply list_elem_of_further, list_elem_of_here.
Defined.

End Shell.

(** * Further properties of the service *)

Section ServiceEdges.
Context {N : Type}.
Implicit Types (api : client N) (h : heap) (n : N) (f : endpoint).

(** X1. Whatever is passed as filters, short of [undefined] ([null], a
    primitive, any reference), is forwarded as it is: the configuration of
    the one [get] is a new object, at a reference the store of the caller
    did not hold, with [params] as its single property, and nothing else
    in the store differs from what the caller had. *)
Theorem getTransactions_config_fresh api (filters : value) h n :
  filters ≠ VUndefined →
  let r := run api (Service.getTransactions filters) h n in
  ∃ c config, trace r = [c]
    ∧ call_req c = Get "/transactions" (VRef config)
    ∧ h !! config = None
    ∧ call_heap c = <[config := {[ "params" := filters ]}]> h.
Proof.
  intros Hdef r. subst r.
  rewrite run_advance, advance_getTransactions_given by done.
  set (cfg := {[ "params" := filters ]} : object).
  pose proof (alloc_fresh h cfg) as Hfresh. unfold resume.
  destruct (api (Get "/transactions" (VRef (alloc h cfg).1)) (alloc h cfg).2 n)
    as [[s h'] n'].
  exists (Call (Get "/transactions" (VRef (alloc h cfg).1)) (alloc h cfg).2 s), (alloc h cfg).1.
  destruct s as [x | e]; [rewrite run_member |]; by split_and!.
Qed.

(** X2. Without filters, the empty default and the configuration are two
    new objects at two different references, neither of which the store
    of the caller held; the store the client receives is the caller's
    with these two added. *)
Theorem getTransactions_default_objects_fresh api h n :
  let r := run api (invoke Service.getTransactions []) h n in
  ∃ c config params, trace r = [c]
    ∧ call_req c = Get "/transactions" (VRef config)
    ∧ h !! config = None ∧ h !! params = None ∧ config ≠ params
    ∧ call_heap c = <[config := {[ "params" := VRef params ]}]> (<[params := ∅]> h).
Proof.
  intros r. subst r. unfold invoke. cbn [head default].
  rewrite run_advance, advance_getTransactions_default. cbn zeta.
  set (fh := alloc h ∅).
  set (cfg := {[ "params" := VRef fh.1 ]} : object).
  pose proof (alloc_fresh h ∅) as Hp. fold fh in Hp.
  pose proof (alloc_fresh fh.2 cfg) as Hc.
  assert (Hempty : fh.2 !! fh.1 = Some ∅) by apply alloc_lookup_new.
  assert (Hne : (alloc fh.2 cfg).1 ≠ fh.1).
  { intros Heq. rewrite Heq, Hempty in Hc. done. }
  assert (Hold : h !! (alloc fh.2 cfg).1 = None).
  { eapply lookup_weaken_None; [exact Hc | apply alloc_extends]. }
  unfold resume.
  destruct (api (Get "/transactions" (VRef (alloc fh.2 cfg).1)) (alloc fh.2 cfg).2 n)
    as [[s h'] n'].
  exists (Call (Get "/transactions" (VRef (alloc fh.2 cfg).1)) (alloc fh.2 cfg).2 s),
         (alloc fh.2 cfg).1, fh.1.
  destruct s as [x | e]; [rewrite run_member |]; by split_and!.
Qed.

(** X3. When the promise of the client is fulfilled with [undefined] or
    with [null], there is nothing to read [data] from: the invocation of
    either function is rejected with a [TypeError], the one call having
    been made. *)
Theorem service_type_error_without_response api f (arg : value) h n (c : call) (x : value) :
  let r := run api (service f arg) h n in
  c ∈ trace r →
  call_result c = Resolved x →
  x = VUndefined ∨ x = VNull →
  (∃ msg, outcome r = Rejected (TypeError msg)) ∧ trace r = [c].
Proof.
  intros r. subst r.
  destruct (run_service api f arg h n) as (rq & hc & _ & _ & ->).
  destruct (api rq hc n) as [[s h'] n']. cbn [trace outcome].
  intros ->%list_elem_of_singleton. cbn [call_result]. intros -> [-> | ->];
    cbn [read_data get_prop]; by eauto.
Qed.

(** X4. When the promise of the client is fulfilled with a primitive, or
    with an object that has no [data] property, the invocation resolves
    with [undefined]: a malformed response is not an error. *)
Theorem service_resolves_undefined api f (arg : value) h n (c : call) (x : value) :
  let r := run api (service f arg) h n in
  c ∈ trace r →
  call_result c = Resolved x →
  match x with
  | VUndefined | VNull => False
  | VBool _ | VNum _ | VStr _ => True
  | VRef l => ∃ o, final_heap r !! l = Some o ∧ o !! "data" = None
  end →
  outcome r = Resolved VUndefined.
Proof.
  intros r. subst r.
  destruct (run_service api f arg h n) as (rq & hc & _ & _ & ->).
  destruct (api rq hc n) as [[s h'] n']. cbn [trace outcome final_heap].
  intros ->%list_elem_of_singleton. cbn [call_result]. intros -> Hx.
  cbn [read_data]. destruct x as [| | b | z | str | l]; cbn [get_prop]; try done.
  destruct Hx as (o & -> & ->). done.
Qed.

End ServiceEdges.

Lemma getTransactions_config_fresh_witness :
  let r := run Demo.mute (Service.getTransactions VNull) ∅ () in
  ∃ c config, trace r = [c]
    ∧ call_req c = Get "/transactions" (VRef config)
    ∧ (∅ : heap) !! config = None
    ∧ call_heap c = <[config := {[ "params" := VNull ]}]> ∅.
Proof. apply (getTransactions_config_fresh Demo.mute VNull ∅ ()). discriminate. Defined.

Lemma service_type_error_without_response_witness :
  let c := Call (Post "/transactions" (VRef 1%positive)) Demo.lunch_store (Resolved VUndefined) in
  let r := run Demo.mute (service CreateTransaction (VRef 1%positive)) Demo.lunch_store () in
  (∃ msg, outcome r = Rejected (TypeError msg)) ∧ trace r = [c].
Proof.
  intros c.
  apply (service_type_error_without_response Demo.mute CreateTransaction (VRef 1%positive)
           Demo.lunch_store () c VUndefined).
  - vm_compute. apply list_elem_of_here.
  - reflexivity.
  - by left.
Defined.

Lemma service_resolves_undefined_witness :
  let api : client unit := λ r h n, (Resolved (VStr "<html>502</html>"), h, n) in
  outcome (run api (service CreateTransaction (VRef 1%positive)) Demo.lunch_store ())
  = Resolved VUndefined.
Proof.
  intros api.
  apply (service_resolves_undefined api CreateTransaction (VRef 1%positive) Demo.lunch_store ()
           (Call (Post "/transactions" (VRef 1%positive)) Demo.lunch_store
                 (Resolved (VStr "<html>502</html>")))
           (VStr "<html>502</html>")).
  - vm_compute. apply list_elem_of_here.
  - reflexivity.
  - exact I.
Defined.

(** ** One call after another *)

Section Sequences.
Context {N : Type}.
Implicit Types (api : client N) (h : heap) (n : N) (f g : endpoint).

(** The interpreter runs [m ≫= k] as [m] and then [k]. *)
Lemma run_bind {A B : Type} api (m : prog A) (k : A → prog B) h n :
  run api (m ≫= k) h n = and_then (run api m h n) (λ a, run api (k a)).
Proof.
  unfold mbind, prog_mbind. revert h n.
  induction m as [a | o k' IH | v p k' IH | r k' IH]; intros h n; cbn.
  - unfold and_then. cbn. by destruct (run api (k a) h n).
  - apply IH.
  - destruct (get_prop h v p) as [x | e]; [apply IH | done].
  - destruct (api r h n) as [[s h'] n']. destruct s as [x | e]; [| done].
    rewrite IH. unfold and_then, logged. cbn.
    by destruct (outcome (run api (k' x) h' n')).
Qed.

(** The run of [getTransactions()], spelled out. *)
Lemma run_getTransactions_default api h n :
  let fh := alloc h ∅ in
  let ch := alloc fh.2 {[ "params" := VRef fh.1 ]} in
  run api (invoke Service.getTransactions []) h n
  = let '(s, h', n') := api (Get "/transactions" (VRef ch.1)) ch.2 n in
    Result (read_data h' s) h' n' [Call (Get "/transactions" (VRef ch.1)) ch.2 s].
Proof.
  intros fh ch. unfold invoke. cbn [head default].
  rewrite run_advance, advance_getTransactions_default. cbn zeta. fold fh. fold ch.
  unfold resume. destruct (api (Get "/transactions" (VRef ch.1)) ch.2 n) as [[s h'] n'].
  destruct s as [x | e]; [by rewrite run_member | done].
Qed.

Lemma default_call_params h (s : settled value) :
  let fh := alloc h ∅ in
  let ch := alloc fh.2 {[ "params" := VRef fh.1 ]} in
  let c := Call (Get "/transactions" (VRef ch.1)) ch.2 s in
  params_field c = Some (VRef fh.1) ∧ query_params c = Some ∅ ∧ is_Some (ch.2 !! fh.1).
Proof.
  intros fh ch c.
  assert (Hempty : fh.2 !! fh.1 = Some ∅) by apply alloc_lookup_new.
  pose proof (alloc_lookup_new fh.2 {[ "params" := VRef fh.1 ]}) as Hnew.
  pose proof (alloc_lookup_old fh.2 {[ "params" := VRef fh.1 ]} fh.1 (mk_is_Some _ _ Hempty))
    as Hold.
  rewrite Hempty in Hold. fold ch in Hnew, Hold.
  unfold params_field, query_params, c. cbn [call_req call_heap].
  rewrite Hnew, lookup_singleton_eq. by split_and!.
Qed.

(** X5. A caller that awaits one function of the service and then the
    other makes the two calls of the client in that order, the second in
    the store and with the client as the first left them, and returns
    what the second returns; when the first invocation is rejected, the
    caller is rejected with the same exception and the second call is
    never made. *)
Theorem service_in_sequence api f g (a b : list value) h n :
  let r1 := run api (invoke (service f) a) h n in
  let r2 := run api (invoke (service g) b) (final_heap r1) (final_net r1) in
  let r := run api (in_sequence f g a b) h n in
  match outcome r1 with
  | Resolved _ =>
      outcome r = outcome r2 ∧ trace r = (trace r1 ++ trace r2)%list ∧ length (trace r) = 2
  | Rejected e =>
      outcome r = Rejected e ∧ trace r = trace r1 ∧ length (trace r) = 1
  end.
Proof.
  intros r1 r2 r. subst r r2. unfold in_sequence. rewrite run_bind. fold r1.
  assert (Hlen : ∀ (e : endpoint) (args : list value) h0 n0,
            length (trace (run api (invoke (service e) args) h0 n0)) = 1).
  { intros e args h0 n0. unfold invoke.
    destruct (run_service api e (default VUndefined (head args)) h0 n0) as (rq & hc & _ & _ & ->).
    by destruct (api rq hc n0) as [[s h'] n']. }
  unfold and_then. destruct (outcome r1) as [x | e]; cbn [outcome trace].
  - split_and!; [done.. |]. rewrite length_app. unfold r1. by rewrite !Hlen.
  - split_and!; [done.. |]. apply Hlen.
Qed.

(** X6. The default of [filters] is built anew at every call: when
    [getTransactions()] is called twice in a row against a client that
    takes no object out of the store, the second call carries another
    object than the first as its query parameters, and that object is
    empty whatever the client did to the first. *)
Theorem default_filters_fresh_per_call api h n (c1 c2 : call) :
  keeps_objects api →
  trace (run api (in_sequence GetTransactions GetTransactions [] []) h n) = [c1; c2] →
  ∃ p1 p2, params_field c1 = Some (VRef p1)
    ∧ params_field c2 = Some (VRef p2)
    ∧ p1 ≠ p2
    ∧ query_params c2 = Some ∅.
Proof.
  intros Hkeep. unfold in_sequence. rewrite run_bind. cbn [service].
  rewrite run_getTransactions_default. cbn zeta.
  set (fh := alloc h ∅). set (ch := alloc fh.2 {[ "params" := VRef fh.1 ]}).
  pose proof (Hkeep (Get "/transactions" (VRef ch.1)) ch.2 n) as Hdom.
  destruct (api (Get "/transactions" (VRef ch.1)) ch.2 n) as [[s h'] n']. cbn in Hdom.
  destruct (default_call_params h s) as (Hp1 & _ & Hin1). fold fh ch in Hp1, Hin1.
  unfold and_then. cbn [outcome final_heap final_net trace].
  destruct (read_data h' s) as [x | e]; [| intros [=]].
  rewrite run_getTransactions_default. cbn zeta.
  set (fh' := alloc h' ∅). set (ch' := alloc fh'.2 {[ "params" := VRef fh'.1 ]}).
  pose proof (alloc_fresh h' ∅) as Hfresh. fold fh' in Hfresh.
  destruct (api (Get "/transactions" (VRef ch'.1)) ch'.2 n') as [[s' h''] n''].
  destruct (default_call_params h' s') as (Hp2 & Hq2 & _). fold fh' ch' in Hp2, Hq2.
  cbn [trace app]. intros [= <- <-].
  exists fh.1, fh'.1. split_and!; [apply Hp1 | apply Hp2 | | apply Hq2].
  intros Heq. apply elem_of_dom in Hin1. apply Hdom in Hin1.
  apply elem_of_dom in Hin1. rewrite Heq, Hfresh in Hin1. by destruct Hin1.
Qed.

End Sequences.

(** ** Whole runs of the page *)

Section LoopInvariants.
Import Loop.
Implicit Types (st : state) (id : nat) (s : settled value) (acts : list action).

Lemma service_request_url (f : endpoint) (arg : value) (h : heap) :
  ∃ r hc, advance (service f arg) h = (Waiting r (λ res, member res "data"), hc)
          ∧ request_url r = "/transactions".
Proof.
  destruct f; cbn [service].
  - destruct (decide (arg = VUndefined)) as [-> | Hne].
    + eexists _, _. split; [apply advance_getTransactions_default | done].
    + eexists _, _. split; [by apply advance_getTransactions_given | done].
  - eexists _, _. split; [apply advance_createTransaction | done].
Qed.

Lemma step_invoke_url (f : endpoint) (args : list value) st :
  ∃ r hc,
    step (Invoke f args) st
    = State hc (<[next st := (r, λ res, member res "data")]> (pending st)) (finished st)
            (sent st ++ [(next st, r)]) (S (next st))
    ∧ request_url r = "/transactions".
Proof.
  destruct (service_request_url f (default VUndefined (head args)) (store st))
    as (r & hc & Hadv & Hurl).
  exists r, hc. split; [| done]. cbn [step]. unfold spawn, invoke. by rewrite Hadv.
Qed.

(** What every state of the page satisfies: requests are numbered as
    the invocations are, and all go to ["/transactions"]. *)
Lemma reachable_invariant st :
  reachable st →
  (sent st).*1 = seq 0 (next st)
  ∧ (∀ id r, (id, r) ∈ sent st → request_url r = "/transactions").
Proof.
  induction 1 as [| a st Hreach (Hsent & Hurl)].
  - unfold init. cbn. split; [done |].
    intros id r Hin. by apply elem_of_nil in Hin.
  - destruct a as [f args | id' s | g].
    + destruct (step_invoke_url f args st) as (r & hc & -> & Hr).
      cbn [sent next]. split.
      * rewrite fmap_app, Hsent, seq_S. done.
      * intros id r0 [Hin | Hin%list_elem_of_singleton]%elem_of_app; [by eapply Hurl |].
        by injection Hin as -> ->.
    + cbn [step]. rewrite settle_reachable by done.
      by destruct (pending st !! id').
    + cbn [step sent next]. by split.
Qed.

Lemma reachable_steps acts st : reachable st → reachable (steps acts st).
Proof.
  revert st. induction acts as [| a acts IH]; intros st Hreach; [done |].
  cbn. by apply IH, reach_step.
Qed.

Lemma next_steps acts st : reachable st → next (steps acts st) = next st + calls_made acts.
Proof.
  revert st. induction acts as [| a acts IH]; intros st Hreach.
  - unfold calls_made. cbn. lia.
  - cbn [steps foldl]. fold (steps acts (step a st)).
    rewrite IH by by apply reach_step.
    destruct a as [f args | id s | g]; unfold calls_made; cbn [List.filter is_invoke length].
    + destruct (step_invoke f args st) as (r & hc & ->). cbn [next]. lia.
    + cbn [step]. rewrite settle_reachable by done. by destruct (pending st !! id).
    + done.
Qed.

(** X7. However calls of the service, settlements (fulfilled or
    rejected) and changes of the store by other code follow one another,
    the client has been handed exactly one request for each call made,
    in the order of the calls: nothing is sent twice and nothing is
    withheld. *)
Theorem one_request_per_call acts :
  (sent (steps acts init)).*1 = seq 0 (calls_made acts).
Proof.
  pose proof (reachable_steps acts init reach_init) as Hreach.
  destruct (reachable_invariant _ Hreach) as [-> _].
  by rewrite next_steps by apply reach_init.
Qed.

(** X8. Every request the service ever hands to the client goes to
    ["/transactions"]. *)
Theorem requests_only_to_transactions acts id (r : request) :
  (id, r) ∈ sent (steps acts init) → request_url r = "/transactions".
Proof.
  pose proof (reachable_steps acts init reach_init) as Hreach.
  destruct (reachable_invariant _ Hreach) as [_ Hurl]. apply Hurl.
Qed.

End LoopInvariants.

Lemma requests_only_to_transactions_witness :
  request_url (Post "/transactions" (VRef 1%positive)) = "/transactions".
Proof.
  apply (requests_only_to_transactions
           [Loop.Outside (λ _, Demo.lunch_store); Loop.Invoke CreateTransaction [VRef 1%positive]]
           0).
  vm_compute. apply list_elem_of_here.
Defined.

Lemma server_keeps_objects (status : Z) (body : value) :
  keeps_objects (Demo.server status body).
Proof. intros r h n. cbn. rewrite dom_insert. set_solver. Qed.

Lemma default_filters_fresh_per_call_witness :
  let h1 : heap := <[2%positive := {[ "params" := VRef 1%positive ]}]> (<[1%positive := ∅]> ∅) in
  let h2 : heap :=
    <[5%positive := {[ "params" := VRef 4%positive ]}]>
      (<[4%positive := ∅]>
         (<[3%positive := {[ "data" := VStr "rows"; "status" := VNum 200 ]}]> h1)) in
  let c1 := Call (Get "/transactions" (VRef 2%positive)) h1 (Resolved (VRef 3%positive)) in
  let c2 := Call (Get "/transactions" (VRef 5%positive)) h2 (Resolved (VRef 6%positive)) in
  ∃ p1 p2, params_field c1 = Some (VRef p1)
    ∧ params_field c2 = Some (VRef p2)
    ∧ p1 ≠ p2
    ∧ query_params c2 = Some ∅.
Proof.
  intros h1 h2 c1 c2.
  apply (default_filters_fresh_per_call (Demo.ok_server (VStr "rows")) ∅ [] c1 c2).
  - apply server_keeps_objects.
  - vm_compute. reflexivity.
Defined.

(** * Further properties of the App shell *)

Section Routing.
Import React.

(** X12. The routes [App] declares and the links the [Navbar] offers
    are the same paths, one for one: every route is the target of a link
    (no page is left without navigation to it), and no path is linked or
    routed twice. *)
Theorem routes_are_linked (path : string) (page : element) :
  (path, page) ∈ routes App →
  path ∈ nav_targets Navbar
  ∧ (routes App).*1 = nav_targets Navbar
  ∧ NoDup (nav_targets Navbar).
Proof.
  intros Hin.
  assert (Hsame : (routes App).*1 = nav_targets Navbar) by reflexivity.
  split_and!; [| done |].
  - rewrite <- Hsame. apply list_elem_of_fmap. by exists (path, page).
  - assert (Hnav : nav_targets Navbar = ["/"; "/transactions"; "/categories"]) by reflexivity.
    rewrite Hnav. apply (bool_decide_unpack (NoDup ["/"; "/transactions"; "/categories"])).
    by vm_compute.
Qed.

End Routing.

Lemma routes_are_linked_witness :
  "/categories" ∈ React.nav_targets React.Navbar
  ∧ (React.routes React.App).*1 = React.nav_targets React.Navbar
  ∧ NoDup (React.nav_targets React.Navbar).
Proof.
  apply (routes_are_linked "/categories" (React.Elem (React.Component "Categories") [] [])).
  do 2 apply list_elem_of_further. apply list_elem_of_here.
Defined.
